(** * The [TryFrom] implementors script of the generated documentation

    Source: [src/implementors/core/convert/trait.TryFrom.js], one immediately
    invoked function:

    - line 1 creates the empty object [implementors];
    - lines 2 to 5 assign one array literal of records to each of four keys;
    - line 6 tests [window.register_implementors]: when it is truthy it is
      called with the table, otherwise the table is stored in
      [window.pending_implementors].

    The script is embedded as a program of a small state-and-exception monad
    over a JavaScript store: a heap of objects and arrays (the table and every
    record are heap objects, handed out by reference), the properties of the
    global object [window], and a trace of the operations the script itself
    performs.  Functions of the host page are opaque: a function value is an
    identifier and the host environment gives its behaviour. *)

From stdpp Require Import gmap strings list fin_maps.

Set Default Proof Using "Type".

(** ** Values, heap objects and the store *)

Module Js.

Definition loc := nat.
Definition fid := nat.

(** JavaScript values.  Objects and arrays are references into the heap.
    Numbers are restricted to integers (only their truthiness matters here). *)
Inductive value :=
| VUndefined
| VNull
| VBool (b : bool)
| VNum (z : Z)
| VStr (s : string)
| VRef (l : loc)
| VFun (f : fid).

(** A plain object keeps its string-keyed properties in insertion order; an
    array keeps its elements. *)
Inductive hobj :=
| HObj (fields : list (string * value))
| HArr (elems : list value).

Record store := Store {
  heap : gmap loc hobj;
  window : gmap string value
}.

(** What the script does, in program order.  [EvCall] carries the store the
    callee sees on entry. *)
Inductive event :=
| EvAlloc (l : loc)
| EvSetProp (l : loc) (k : string) (v : value)
| EvSetGlobal (k : string) (v : value)
| EvCall (f : fid) (args : list value) (σ : store).

Record state := State {
  st : store;
  trace : list event
}.

Inductive error :=
| TypeError (what : string)
| Thrown (v : value).

(** The host's functions: a call returns a value or throws one, and may
    change heap and globals on the way.  They are total: a hook that never
    returns is outside the model. *)
Inductive host_result :=
| Returns (v : value) (s : store)
| Throws (v : value) (s : store).

Definition host_env := fid → list value → store → host_result.

(** ** The monad *)

Inductive outcome (A : Type) :=
| Normal (a : A) (s : state)
| Abrupt (e : error) (s : state).
Arguments Normal {A} a s.
Arguments Abrupt {A} e s.

Definition M (A : Type) : Type := state → outcome A.

Definition ret {A} (a : A) : M A := λ s, Normal a s.

Definition bind {A B} (m : M A) (k : A → M B) : M B :=
  λ s, match m s with
       | Normal a s' => k a s'
       | Abrupt e s' => Abrupt e s'
       end.

Definition throw {A} (e : error) : M A := λ s, Abrupt e s.

Definition emit (ev : event) : M unit :=
  λ s, Normal tt (State (st s) (trace s ++ [ev])).

Definition get_store : M store := λ s, Normal (st s) s.

Definition put_store (σ : store) : M unit :=
  λ s, Normal tt (State σ (trace s)).

End Js.
Import Js.

(** The monad's operations through stdpp's notations [x ← m; k] and [m;; k]. *)
#[global] Instance M_ret : MRet M := @ret.
#[global] Instance M_bind : MBind M := λ A B k m, bind m k.

(** ** Primitive operations *)

(** ToBoolean. *)
Definition to_boolean (v : value) : bool :=
  match v with
  | VUndefined | VNull => false
  | VBool b => b
  | VNum z => negb (Z.eqb z 0)
  | VStr s => negb (String.eqb s "")
  | VRef _ | VFun _ => true
  end.

(** Allocation of a heap object at a location the heap does not use. *)
Definition alloc (o : hobj) : M loc :=
  σ ← get_store;
  let l := fresh (dom (heap σ)) in
  put_store (Store (<[l := o]> (heap σ)) (window σ));;
  emit (EvAlloc l);;
  mret l.

(** [{}] *)
Definition new_object : M loc := alloc (HObj []).

(** Property assignment on a field list: an existing key keeps its place and
    gets the new value, a new key goes last.  (Keys that are array indices,
    which JavaScript lists first, do not occur in the script.) *)
Fixpoint put_field (k : string) (v : value) (fs : list (string * value))
  : list (string * value) :=
  match fs with
  | [] => [(k, v)]
  | (k', v') :: fs' =>
      if String.eqb k k' then (k, v) :: fs' else (k', v') :: put_field k v fs'
  end.

Definition put_prop (k : string) (v : value) (o : hobj) : hobj :=
  match o with
  | HObj fs => HObj (put_field k v fs)
  | HArr es => HArr es
  end.

(** [o[k] = v] for a reference [o] to a plain object.  Named properties on
    arrays are outside the fragment the script uses (the array is left as it
    is). *)
Definition set_prop (l : loc) (k : string) (v : value) : M unit :=
  σ ← get_store;
  put_store (Store (alter (put_prop k v) l (heap σ)) (window σ));;
  emit (EvSetProp l k v).

(** [window.k] as an expression: a missing property reads as [undefined]. *)
Definition get_window (k : string) : M value :=
  σ ← get_store;
  mret (default VUndefined (window σ !! k)).

(** [window.k = v] *)
Definition set_window (k : string) (v : value) : M unit :=
  σ ← get_store;
  put_store (Store (heap σ) (<[k := v]> (window σ)));;
  emit (EvSetGlobal k v).

(** [callee(args)]: a callee that is not a function is a TypeError; a host
    function runs on the current store, and what it throws propagates. *)
Definition call (host : host_env) (callee : value) (args : list value) : M value :=
  match callee with
  | VFun f =>
      σ ← get_store;
      emit (EvCall f args σ);;
      match host f args σ with
      | Returns v σ' => put_store σ';; mret v
      | Throws v σ' => put_store σ';; throw (Thrown v)
      end
  | _ => throw (TypeError "is not a function")
  end.

(** ** Literals *)

(** The literal expressions of the script: strings, booleans, array literals
    and object literals (fields in the order written). *)
#[warnings="-register-all"]
Inductive literal :=
| LStr (s : string)
| LBool (b : bool)
| LArr (es : list literal)
| LObj (fs : list (string * literal)).

(** Evaluation of a literal: elements and fields left to right, then the
    array or the object is allocated (where in that order it is allocated
    cannot be observed).  A key written twice in an object literal keeps its
    first place and its last value. *)
Fixpoint eval_literal (e : literal) : M value :=
  match e with
  | LStr s => mret (VStr s)
  | LBool b => mret (VBool b)
  | LArr es =>
      vs ← mapM eval_literal es;
      l ← alloc (HArr vs);
      mret (VRef l)
  | LObj fs =>
      kvs ← mapM (λ kf, v ← eval_literal kf.2; mret (kf.1, v)) fs;
      l ← alloc (HObj (foldl (λ acc kv, put_field kv.1 kv.2 acc) [] kvs));
      mret (VRef l)
  end.

(** Reading a value back as a literal, following references through the
    heap ([fuel] bounds the nesting).  Values with no literal form in this
    fragment (undefined, null, numbers, functions) and dangling references
    give [None]. *)
Fixpoint reify (fuel : nat) (h : gmap loc hobj) (v : value) : option literal :=
  match fuel with
  | 0 => None
  | S n =>
      match v with
      | VStr s => Some (LStr s)
      | VBool b => Some (LBool b)
      | VRef l =>
          match h !! l with
          | Some (HArr vs) => LArr <$> mapM (reify n h) vs
          | Some (HObj fs) =>
              LObj <$> mapM (λ kv, e ← reify n h kv.2; Some (kv.1, e)) fs
          | None => None
          end
      | _ => None
      end
  end.

(** ** The data of the script *)

(** The double quote, written as an escape inside the source's string
    literals; [markup] joins the pieces of a string that lie between its
    double quotes. *)
Definition dquote : string := String (Ascii.ascii_of_nat 34) EmptyString.

Definition markup (pieces : list string) : string := String.concat dquote pieces.

(** [{"text": ..., "synthetic": ..., "types": [...]}] *)
Definition record (text : string) (synthetic : bool) (types : list string) : literal :=
  LObj [("text", LStr text); ("synthetic", LBool synthetic);
        ("types", LArr (LStr <$> types))].

(** Line 2 of the source: the array assigned to [implementors[quinn_proto]]. *)
Definition quinn_proto_impls : literal :=
  LArr [
    record
      (markup [
         "impl <a class="; "trait"; " href=";
         "https://doc.rust-lang.org/nightly/core/convert/trait.TryFrom.html";
         " title="; "trait core::convert::TryFrom";
         ">TryFrom</a>&lt;<a class="; "primitive"; " href=";
         "https://doc.rust-lang.org/nightly/std/primitive.u64.html";
         ">u64</a>&gt; for <a class="; "struct"; " href=";
         "quinn_proto/struct.VarInt.html"; " title=";
         "struct quinn_proto::VarInt"; ">VarInt</a>"
      ])
      false
      ["quinn_proto::varint::VarInt"];
    record
      (markup [
         "impl <a class="; "trait"; " href=";
         "https://doc.rust-lang.org/nightly/core/convert/trait.TryFrom.html";
         " title="; "trait core::convert::TryFrom";
         ">TryFrom</a>&lt;<a class="; "primitive"; " href=";
         "https://doc.rust-lang.org/nightly/std/primitive.u128.html";
         ">u128</a>&gt; for <a class="; "struct"; " href=";
         "quinn_proto/struct.VarInt.html"; " title=";
         "struct quinn_proto::VarInt"; ">VarInt</a>"
      ])
      false
      ["quinn_proto::varint::VarInt"];
    record
      (markup [
         "impl <a class="; "trait"; " href=";
         "https://doc.rust-lang.org/nightly/core/convert/trait.TryFrom.html";
         " title="; "trait core::convert::TryFrom";
         ">TryFrom</a>&lt;<a class="; "primitive"; " href=";
         "https://doc.rust-lang.org/nightly/std/primitive.usize.html";
         ">usize</a>&gt; for <a class="; "struct"; " href=";
         "quinn_proto/struct.VarInt.html"; " title=";
         "struct quinn_proto::VarInt"; ">VarInt</a>"
      ])
      false
      ["quinn_proto::varint::VarInt"];
    record
      (markup [
         "impl <a class="; "trait"; " href=";
         "https://doc.rust-lang.org/nightly/core/convert/trait.TryFrom.html";
         " title="; "trait core::convert::TryFrom";
         ">TryFrom</a>&lt;<a class="; "struct"; " href=";
         "https://doc.rust-lang.org/nightly/core/time/struct.Duration.html";
         " title="; "struct core::time::Duration";
         ">Duration</a>&gt; for <a class="; "struct"; " href=";
         "quinn_proto/struct.IdleTimeout.html"; " title=";
         "struct quinn_proto::IdleTimeout"; ">IdleTimeout</a>"
      ])
      false
      ["quinn_proto::config::IdleTimeout"]
  ].

(** Line 3 of the source: the array assigned to [implementors[rustls]]. *)
Definition rustls_impls : literal :=
  LArr [
    record
      (markup [
         "impl <a class="; "trait"; " href=";
         "https://doc.rust-lang.org/nightly/core/convert/trait.TryFrom.html";
         " title="; "trait core::convert::TryFrom";
         ">TryFrom</a>&lt;<a class="; "struct"; " href=";
         "rustls/internal/msgs/message/struct.PlainMessage.html"; " title=";
         "struct rustls::internal::msgs::message::PlainMessage";
         ">PlainMessage</a>&gt; for <a class="; "struct"; " href=";
         "rustls/internal/msgs/message/struct.Message.html"; " title=";
         "struct rustls::internal::msgs::message::Message"; ">Message</a>"
      ])
      false
      ["rustls::msgs::message::Message"];
    record
      (markup [
         "impl <a class="; "trait"; " href=";
         "https://doc.rust-lang.org/nightly/core/convert/trait.TryFrom.html";
         " title="; "trait core::convert::TryFrom";
         ">TryFrom</a>&lt;&amp;'_ <a class="; "primitive"; " href=";
         "https://doc.rust-lang.org/nightly/std/primitive.str.html";
         ">str</a>&gt; for <a class="; "enum"; " href=";
         "rustls/client/enum.ServerName.html"; " title=";
         "enum rustls::client::ServerName"; ">ServerName</a>"
      ])
      false
      ["rustls::client::client_conn::ServerName"]
  ].

(** Line 4 of the source: the array assigned to [implementors[tinyvec]]. *)
Definition tinyvec_impls : literal :=
  LArr [
    record
      (markup [
         "impl&lt;T, A&gt; <a class="; "trait"; " href=";
         "https://doc.rust-lang.org/nightly/core/convert/trait.TryFrom.html";
         " title="; "trait core::convert::TryFrom";
         ">TryFrom</a>&lt;<a class="; "primitive"; " href=";
         "https://doc.rust-lang.org/nightly/core/primitive.slice.html";
         ">&amp;'_ [T]</a>&gt; for <a class="; "struct"; " href=";
         "tinyvec/struct.ArrayVec.html"; " title=";
         "struct tinyvec::ArrayVec"; ">ArrayVec</a>&lt;A&gt; <span class=";
         "where fmt-newline";
         ">where<br>&nbsp;&nbsp;&nbsp;&nbsp;T: <a class="; "trait"; " href=";
         "https://doc.rust-lang.org/nightly/core/clone/trait.Clone.html";
         " title="; "trait core::clone::Clone"; ">Clone</a> + <a class=";
         "trait"; " href=";
         "https://doc.rust-lang.org/nightly/core/default/trait.Default.html";
         " title="; "trait core::default::Default";
         ">Default</a>,<br>&nbsp;&nbsp;&nbsp;&nbsp;A: <a class="; "trait";
         " href="; "tinyvec/trait.Array.html"; " title=";
         "trait tinyvec::Array"; ">Array</a>&lt;Item = T&gt;,&nbsp;</span>"
      ])
      false
      ["tinyvec::arrayvec::ArrayVec"]
  ].

(** Line 5 of the source: the array assigned to [implementors[webpki]]. *)
Definition webpki_impls : literal :=
  LArr [
    record
      (markup [
         "impl&lt;'a&gt; <a class="; "trait"; " href=";
         "https://doc.rust-lang.org/nightly/core/convert/trait.TryFrom.html";
         " title="; "trait core::convert::TryFrom";
         ">TryFrom</a>&lt;<a class="; "primitive"; " href=";
         "https://doc.rust-lang.org/nightly/std/primitive.slice.html";
         ">&amp;'a [</a><a class="; "primitive"; " href=";
         "https://doc.rust-lang.org/nightly/std/primitive.u8.html";
         ">u8</a><a class="; "primitive"; " href=";
         "https://doc.rust-lang.org/nightly/std/primitive.slice.html";
         ">]</a>&gt; for <a class="; "struct"; " href=";
         "webpki/struct.EndEntityCert.html"; " title=";
         "struct webpki::EndEntityCert"; ">EndEntityCert</a>&lt;'a&gt;"
      ])
      false
      ["webpki::end_entity::EndEntityCert"];
    record
      (markup [
         "impl <a class="; "trait"; " href=";
         "https://doc.rust-lang.org/nightly/core/convert/trait.TryFrom.html";
         " title="; "trait core::convert::TryFrom";
         ">TryFrom</a>&lt;<a class="; "struct"; " href=";
         "https://doc.rust-lang.org/nightly/std/time/struct.SystemTime.html";
         " title="; "struct std::time::SystemTime";
         ">SystemTime</a>&gt; for <a class="; "struct"; " href=";
         "webpki/struct.Time.html"; " title="; "struct webpki::Time";
         ">Time</a>"
      ])
      false
      ["webpki::time::Time"]
  ].

(** ** The script *)

(** Lines 1 to 5: [var implementors = {}] and the four assignments. *)
Definition build_table : M loc :=
  implementors ← new_object;
  (v ← eval_literal quinn_proto_impls; set_prop implementors "quinn_proto" v);;
  (v ← eval_literal rustls_impls; set_prop implementors "rustls" v);;
  (v ← eval_literal tinyvec_impls; set_prop implementors "tinyvec" v);;
  (v ← eval_literal webpki_impls; set_prop implementors "webpki" v);;
  mret implementors.

(** Line 6: the test reads [window.register_implementors], the call reads it
    again; the value of the call is dropped. *)
Definition dispatch (host : host_env) (implementors : loc) : M unit :=
  hook ← get_window "register_implementors";
  if to_boolean hook then
    callee ← get_window "register_implementors";
    call host callee [VRef implementors];;
    mret tt
  else
    set_window "pending_implementors" (VRef implementors).

(** The whole function body, run once at load time. *)
Definition script (host : host_env) : M unit :=
  implementors ← build_table;
  dispatch host implementors.

Definition load (host : host_env) (σ : store) : outcome unit :=
  script host (State σ []).

(** The table the four assignments build, in literal form. *)
Definition implementors_table : literal :=
  LObj [("quinn_proto", quinn_proto_impls); ("rustls", rustls_impls);
        ("tinyvec", tinyvec_impls); ("webpki", webpki_impls)].

(** ** Measures and well-formedness of literals *)

Fixpoint depth (e : literal) : nat :=
  match e with
  | LStr _ | LBool _ => 1
  | LArr es => S (foldr (λ e d, depth e `max` d) 0 es)
  | LObj fs => S (foldr (λ kf d, depth kf.2 `max` d) 0 fs)
  end.

(** No object literal writes a key twice. *)
Fixpoint distinct_keys (e : literal) : bool :=
  match e with
  | LStr _ | LBool _ => true
  | LArr es => forallb distinct_keys es
  | LObj fs =>
      bool_decide (NoDup fs.*1) && forallb (λ kf, distinct_keys kf.2) fs
  end.

(** * Specification vocabulary *)

(** ** Reading the store and the trace *)

(** The value the test of line 6 reads. *)
Definition hook_of (σ : store) : value :=
  default VUndefined (window σ !! "register_implementors").

Definition final {A} (o : outcome A) : state :=
  match o with Normal _ s | Abrupt _ s => s end.

Definition completes {A} (o : outcome A) : bool :=
  match o with Normal _ _ => true | Abrupt _ _ => false end.

(** A host function that returns normally whatever it is given. *)
Definition returns (host : host_env) (f : fid) : Prop :=
  ∀ args σ, ∃ v σ', host f args σ = Returns v σ'.

Definition is_alloc (ev : event) : Prop :=
  match ev with EvAlloc _ => True | _ => False end.

Definition prop_writes (t : list event) : list (loc * string * value) :=
  omap (λ ev, match ev with EvSetProp l k v => Some (l, k, v) | _ => None end) t.

Definition global_writes (t : list event) : list (string * value) :=
  omap (λ ev, match ev with EvSetGlobal k v => Some (k, v) | _ => None end) t.

Definition calls (t : list event) : list (fid * list value * store) :=
  omap (λ ev, match ev with EvCall f args σ => Some (f, args, σ) | _ => None end) t.

(** ** Reading literals *)

(** Reading a literal: the keys of an object, the value of a key, the
    elements of an array, and the records listed under a key of the table. *)
Definition keys (e : literal) : list string :=
  match e with LObj fs => fs.*1 | _ => [] end.

Fixpoint assoc (k : string) (fs : list (string * literal)) : option literal :=
  match fs with
  | [] => None
  | (k', e) :: fs' => if String.eqb k k' then Some e else assoc k fs'
  end.

Definition field (k : string) (e : literal) : option literal :=
  match e with LObj fs => assoc k fs | _ => None end.

Definition elements (e : literal) : option (list literal) :=
  match e with LArr es => Some es | _ => None end.

Definition records (t : literal) (k : string) : option (list literal) :=
  field k t ≫= elements.

Definition all_records (t : literal) : list literal :=
  match t with
  | LObj fs => concat (omap (λ kf, elements kf.2) fs)
  | _ => []
  end.

(** The display strings of a sequence of records, and whether a sequence of
    strings ascends or descends in the lexicographic order. *)
Definition texts (es : list literal) : list string :=
  omap (λ r, match field "text" r with Some (LStr s) => Some s | _ => None end) es.



(** The shape of a record: exactly the fields [text] (a string), [synthetic]
    (a boolean) and [types] (an array of strings), in this order. *)
Definition is_string (e : literal) : bool :=
  match e with LStr _ => true | _ => false end.

Definition is_record (e : literal) : bool :=
  match e with
  | LObj [(k1, LStr _); (k2, LBool _); (k3, LArr ts)] =>
      String.eqb k1 "text" && String.eqb k2 "synthetic" &&
      String.eqb k3 "types" && forallb is_string ts
  | _ => false
  end.

(** ** Serialisation *)

(** Nesting of the table: table, array, record, [types] array, string. *)
Definition table_nesting : nat := 5.

(** Serialising a value: reading it back from the heap in literal form. *)
Definition serialize (h : gmap loc hobj) (v : value) : option literal :=
  reify table_nesting h v.

(** The table as lines 1 to 5 leave it, serialised. *)
Definition built_table (σ : store) : option literal :=
  match build_table (State σ []) with
  | Normal l s1 => serialize (heap (st s1)) (VRef l)
  | Abrupt _ _ => None
  end.

(** [holds h v e]: with any fuel that covers the nesting of [e], the value
    [v] reads back from the heap [h] as the literal [e]. *)
Definition holds (h : gmap loc hobj) (v : value) (e : literal) : Prop :=
  ∀ n, depth e ≤ n → reify n h v = Some e.


(** ** Allocation and construction *)

Definition extend (s : state) (Δ : gmap loc hobj) (evs : list event) : state :=
  State (Store (Δ ∪ heap (st s)) (window (st s))) (trace s ++ evs).

Definition allocates {A} (m : M A) (Q : gmap loc hobj → A → Prop) : Prop :=
  ∀ s, ∃ a Δ evs,
    m s = Normal a (extend s Δ evs) ∧
    Δ ##ₘ heap (st s) ∧ Forall is_alloc evs ∧ Q Δ a.

(** [represents e Δ v]: in every heap that contains [Δ], with fuel for the
    nesting of [e], the value [v] reads back as [e]. *)
Definition represents (e : literal) (Δ : gmap loc hobj) (v : value) : Prop :=
  ∀ H n, Δ ⊆ H → depth e ≤ n → reify n H v = Some e.

(** What lines 1 to 5 establish, from the store [σ], with the table at [l0],
    the state [s1] after them and the events [evs] they add to the trace. *)
Record built (σ : store) (l0 : loc) (s1 : state) (evs : list event) : Prop := Built {
  built_fresh : heap σ !! l0 = None;
  built_frame : heap σ ⊆ heap (st s1);
  built_window : window (st s1) = window σ;
  built_holds : holds (heap (st s1)) (VRef l0) implementors_table;
  built_assigns :
    (prop_writes evs).*1 =
    [(l0, "quinn_proto"); (l0, "rustls"); (l0, "tinyvec"); (l0, "webpki")];
  built_no_global : global_writes evs = [];
  built_no_call : calls evs = []
}.

(** ** The ways line 6 can go *)

#[global] Instance value_eq_dec : EqDecision value.
Proof. solve_decision. Defined.

#[global] Instance is_function_dec (v : value) : Decision (∃ f, v = VFun f).
Proof.
  destruct v as [| | | | | |f];
    try (right; intros [? ?]; discriminate).
  left. by exists f.
Defined.

(** The four ways line 6 can go, from the state [s] lines 1 to 5 left. *)
Inductive dispatch_case (host : host_env) (l : loc) (s : state)
  : outcome unit → Prop :=
| case_pending :
    to_boolean (hook_of (st s)) = false →
    dispatch_case host l s
      (Normal tt
         (State (Store (heap (st s))
                       (<["pending_implementors" := VRef l]> (window (st s))))
                (trace s ++ [EvSetGlobal "pending_implementors" (VRef l)])))
| case_returned f v σ' :
    hook_of (st s) = VFun f →
    host f [VRef l] (st s) = Returns v σ' →
    dispatch_case host l s
      (Normal tt (State σ' (trace s ++ [EvCall f [VRef l] (st s)])))
| case_thrown f v σ' :
    hook_of (st s) = VFun f →
    host f [VRef l] (st s) = Throws v σ' →
    dispatch_case host l s
      (Abrupt (Thrown v) (State σ' (trace s ++ [EvCall f [VRef l] (st s)])))
| case_not_callable :
    to_boolean (hook_of (st s)) = true →
    (∀ f, hook_of (st s) ≠ VFun f) →
    dispatch_case host l s (Abrupt (TypeError "is not a function") s).

(** ** Sample host pages *)

(** A host whose functions return [undefined] and change nothing. *)
Definition quiet_host : host_env := λ _ _ σ, Returns VUndefined σ.

(** A page that has defined nothing yet. *)
Definition empty_page : store := Store ∅ ∅.

(** A page that defined the hook as function 0 before the script loads. *)
Definition page_with_hook : store :=
  Store ∅ {["register_implementors" := VFun 0]}.

(** A page whose hook slot holds the number 1. *)
Definition page_with_number : store :=
  Store ∅ {["register_implementors" := VNum 1]}.

(** A page whose hook slot holds [null]. *)
Definition page_with_null : store :=
  Store ∅ {["register_implementors" := VNull]}.

(** A host whose functions throw the string "boom" and change nothing. *)
Definition throwing_host : host_env := λ _ _ σ, Throws (VStr "boom") σ.

(** ** Invariants of the data *)

(** [types_in_crate t]: under every key of the table, every type identifier
    of every record starts with that key followed by [::]. *)
Definition record_types (r : literal) : list literal :=
  match field "types" r with Some (LArr tys) => tys | _ => [] end.

Definition in_crate (k : string) (ty : literal) : bool :=
  match ty with LStr s => String.prefix (k +:+ "::") s | _ => false end.

Definition types_in_crate (t : literal) : bool :=
  match t with
  | LObj fs =>
      forallb (λ kf, match kf.2 with
                     | LArr es =>
                         forallb (λ r, forallb (in_crate kf.1) (record_types r)) es
                     | _ => false
                     end) fs
  | _ => false
  end.

(** ** Orderings of the records *)




(** * Proofs *)

(** Membership in the one-event and empty projections of a trace. *)
Ltac trace_solver :=
  repeat match goal with
         | |- ∀ _, _ => intro
         | H : _ ∈ [] |- _ => by apply elem_of_nil in H
         | H : _ ∈ [_] |- _ => apply list_elem_of_singleton in H; simplify_eq
         | |- _ ∧ _ => split
         | |- _ ∨ _ => (by left) || (by right)
         end;
  try done; try lia.

(** ** Induction on literals, through their lists *)

Lemma literal_ind' (P : literal → Prop) :
  (∀ s, P (LStr s)) →
  (∀ b, P (LBool b)) →
  (∀ es, Forall P es → P (LArr es)) →
  (∀ fs, Forall (λ kf, P kf.2) fs → P (LObj fs)) →
  ∀ e, P e.
Proof.
  intros Hs Hb Ha Ho. fix IH 1. intros [s|b|es|fs].
  - apply Hs.
  - apply Hb.
  - apply Ha. induction es as [|e es IHes]; constructor; [apply IH | apply IHes].
  - apply Ho. induction fs as [|[k e] fs IHfs]; constructor; [apply IH | apply IHfs].
Qed.

Lemma depth_elem (es : list literal) (e : literal) :
  e ∈ es → depth e ≤ foldr (λ e d, depth e `max` d) 0 es.
Proof.
  induction 1 as [e es|e e' es _ IH]; simpl; lia.
Qed.

Lemma depth_field (fs : list (string * literal)) (kf : string * literal) :
  kf ∈ fs → depth kf.2 ≤ foldr (λ kf d, depth kf.2 `max` d) 0 fs.
Proof.
  induction 1 as [e es|e e' es _ IH]; simpl; lia.
Qed.

(** ** Field lists *)

Lemma put_field_fresh k v (fs : list (string * value)) :
  k ∉ fs.*1 → put_field k v fs = fs ++ [(k, v)].
Proof.
  induction fs as [|[k' v'] fs IH]; simpl; [done|].
  intros Hk. apply not_elem_of_cons in Hk as [Hne Hk].
  destruct (String.eqb_spec k k') as [->|_]; [done|].
  by rewrite IH.
Qed.

Lemma foldl_put_field (acc kvs : list (string * value)) :
  NoDup (acc.*1 ++ kvs.*1) →
  foldl (λ acc kv, put_field kv.1 kv.2 acc) acc kvs = acc ++ kvs.
Proof.
  revert acc. induction kvs as [|[k v] kvs IH]; intros acc Hnd; simpl.
  - by rewrite app_nil_r.
  - rewrite put_field_fresh.
    + rewrite IH, <-app_assoc; [done|].
      by rewrite fmap_app, <-app_assoc.
    + apply NoDup_app in Hnd as (_ & Hdisj & _).
      intros Hin. apply (Hdisj _ Hin). simpl. left.
Qed.

Lemma strings_fmap (ts : list literal) :
  forallb is_string ts → ∃ ss, ts = LStr <$> ss.
Proof.
  intros Hts. apply forallb_True in Hts.
  induction Hts as [|[s| | |] ts Hs _ [ss ->]]; try done.
  - by exists [].
  - by exists (s :: ss).
Qed.

Lemma records_all_records (t : literal) (k : string) (es : list literal) :
  records t k = Some es → es ⊆ all_records t.
Proof.
  destruct t as [| | |fs]; try done. unfold records, field, all_records.
  induction fs as [|[k' e] fs IH]; simpl; [done|].
  destruct (String.eqb k k').
  - simpl. intros ->. intros r Hr. apply elem_of_app. by left.
  - intros Hk r Hr. destruct (elements e); simpl.
    + apply elem_of_app. right. by apply (IH Hk).
    + by apply (IH Hk).
Qed.

(** ** Running the monad *)

Lemma bind_normal {A B} (m : M A) (k : A → M B) (s s' : state) (a : A) :
  m s = Normal a s' → (m ≫= k) s = k a s'.
Proof. intros Hm. unfold mbind, M_bind, bind. by rewrite Hm. Qed.

Lemma alloc_run (o : hobj) (s : state) :
  alloc o s =
  Normal (fresh (dom (heap (st s))))
    (State (Store (<[fresh (dom (heap (st s))) := o]> (heap (st s)))
                  (window (st s)))
           (trace s ++ [EvAlloc (fresh (dom (heap (st s))))])).
Proof. reflexivity. Qed.

Lemma set_prop_run (l : loc) (k : string) (v : value) (s : state) :
  set_prop l k v s =
  Normal tt (State (Store (alter (put_prop k v) l (heap (st s))) (window (st s)))
                   (trace s ++ [EvSetProp l k v])).
Proof. reflexivity. Qed.

Lemma eval_literal_arr es :
  eval_literal (LArr es) =
  (vs ← mapM eval_literal es; l ← alloc (HArr vs); mret (VRef l)).
Proof. reflexivity. Qed.

Lemma eval_literal_obj fs :
  eval_literal (LObj fs) =
  (kvs ← mapM (λ kf, v ← eval_literal kf.2; mret (kf.1, v)) fs;
   l ← alloc (HObj (foldl (λ acc kv, put_field kv.1 kv.2 acc) [] kvs));
   mret (VRef l)).
Proof. reflexivity. Qed.

Lemma reify_ref n H l :
  reify (S n) H (VRef l) =
  match H !! l with
  | Some (HArr vs) => LArr <$> mapM (reify n H) vs
  | Some (HObj fs) =>
      LObj <$> mapM (λ kv, e ← reify n H kv.2; Some (kv.1, e)) fs
  | None => None
  end.
Proof. reflexivity. Qed.

(** ** A frame rule for allocating computations

    [allocates m Q]: from every state, [m] returns normally, adds a part [Δ]
    to the heap that is disjoint from what was there, leaves the old heap and
    the globals as they were, emits allocation events only, and its result
    satisfies [Q Δ]. *)

Lemma extend_empty s : extend s ∅ [] = s.
Proof.
  destruct s as [[h w] t]. unfold extend; simpl.
  by rewrite (left_id_L ∅ (∪)), app_nil_r.
Qed.

Lemma extend_extend s Δ1 evs1 Δ2 evs2 :
  extend (extend s Δ1 evs1) Δ2 evs2 = extend s (Δ2 ∪ Δ1) (evs1 ++ evs2).
Proof.
  unfold extend; simpl. by rewrite (assoc_L (∪)), app_assoc.
Qed.

Lemma allocates_ret {A} (a : A) (Q : gmap loc hobj → A → Prop) :
  Q ∅ a → allocates (mret a) Q.
Proof.
  intros HQ s. exists a, ∅, []. rewrite extend_empty.
  repeat split; [apply map_disjoint_empty_l | constructor | done].
Qed.

Lemma allocates_bind {A B} (m : M A) (k : A → M B)
    (Q1 : gmap loc hobj → A → Prop) (Q : gmap loc hobj → B → Prop) :
  allocates m Q1 →
  (∀ a Δ1, Q1 Δ1 a →
     allocates (k a) (λ Δ2 b, Δ2 ##ₘ Δ1 → Q (Δ2 ∪ Δ1) b)) →
  allocates (m ≫= k) Q.
Proof.
  intros Hm Hk s.
  destruct (Hm s) as (a & Δ1 & evs1 & Hrun1 & Hd1 & Hal1 & HQ1).
  destruct (Hk a Δ1 HQ1 (extend s Δ1 evs1))
    as (b & Δ2 & evs2 & Hrun2 & Hd2 & Hal2 & HQ2).
  simpl in Hd2. apply map_disjoint_union_r in Hd2 as [Hd21 Hd2].
  exists b, (Δ2 ∪ Δ1), (evs1 ++ evs2).
  split; [|split; [|split]].
  - unfold mbind, M_bind, bind. by rewrite Hrun1, Hrun2, extend_extend.
  - by apply map_disjoint_union_l.
  - by apply Forall_app.
  - by apply HQ2.
Qed.

Lemma allocates_alloc (o : hobj) :
  allocates (alloc o) (λ Δ l, Δ = {[l := o]}).
Proof.
  intros [[h w] t].
  assert (h !! fresh (dom h) = None) as Hfresh
    by apply not_elem_of_dom, is_fresh.
  exists (fresh (dom h)), {[fresh (dom h) := o]}, [EvAlloc (fresh (dom h))].
  split; [|split; [|split]].
  - rewrite alloc_run. unfold extend; simpl.
    by rewrite insert_union_singleton_l.
  - by apply map_disjoint_singleton_l.
  - by repeat constructor.
  - done.
Qed.

Lemma allocates_mapM {A B} (f : A → M B)
    (R : A → gmap loc hobj → B → Prop) (l : list A) :
  (∀ x Δ Δ' b, Δ ⊆ Δ' → R x Δ b → R x Δ' b) →
  Forall (λ x, allocates (f x) (R x)) l →
  allocates (mapM f l) (λ Δ bs, Forall2 (λ x b, R x Δ b) l bs).
Proof.
  intros Hmono. induction 1 as [|x l Hx _ IH]; simpl.
  - apply allocates_ret. constructor.
  - eapply allocates_bind; [exact Hx|]. intros y Δ1 Hy.
    eapply allocates_bind; [exact IH|]. intros ys Δ2 Hys.
    apply allocates_ret. intros _ Hdisj.
    rewrite (left_id_L ∅ (∪)) in Hdisj |- *. constructor.
    + eapply Hmono; [|exact Hy]. by apply map_union_subseteq_r.
    + eapply Forall2_impl; [exact Hys|]. intros x' b'. simpl.
      apply Hmono, map_union_subseteq_l.
Qed.

(** ** Evaluating a literal and reading it back *)

Lemma represents_mono e Δ Δ' v :
  Δ ⊆ Δ' → represents e Δ v → represents e Δ' v.
Proof.
  intros Hsub Hrep H n HH Hn. apply Hrep; [|done]. by etrans.
Qed.

Lemma reify_elems Δ H n (es : list literal) (vs : list value) :
  Forall2 (λ e v, represents e Δ v) es vs →
  Δ ⊆ H → (∀ e, e ∈ es → depth e ≤ n) →
  mapM (reify n H) vs = Some es.
Proof.
  intros HF Hsub Hd. apply mapM_Some.
  induction HF as [|e v es vs Hrep _ IH]; constructor.
  - apply Hrep; [done|]. apply Hd. left.
  - apply IH. intros e' He'. apply Hd. by right.
Qed.

Lemma reify_fields Δ H n (fs : list (string * literal))
    (kvs : list (string * value)) :
  Forall2 (λ kf kv, kv.1 = kf.1 ∧ represents kf.2 Δ kv.2) fs kvs →
  Δ ⊆ H → (∀ kf, kf ∈ fs → depth kf.2 ≤ n) →
  mapM (λ kv, e ← reify n H kv.2; Some (kv.1, e)) kvs = Some fs.
Proof.
  intros HF Hsub Hd. apply mapM_Some.
  induction HF as [|[k e] [k' v] fs kvs [Hk Hrep] _ IH]; constructor.
  - simpl in *. subst k'. rewrite (Hrep H n); [done|done|].
    apply (Hd (k, e)). left.
  - apply IH. intros kf Hkf. apply Hd. by right.
Qed.

Lemma fields_keys Δ (fs : list (string * literal)) (kvs : list (string * value)) :
  Forall2 (λ kf kv, kv.1 = kf.1 ∧ represents kf.2 Δ kv.2) fs kvs →
  kvs.*1 = fs.*1.
Proof.
  induction 1 as [|kf kv fs kvs [Hk _] _ IH]; [done|].
  rewrite !fmap_cons. by f_equal.
Qed.

(** Evaluating a literal with distinct keys allocates a structure that reads
    back as the literal. *)
Lemma eval_literal_allocates (e : literal) :
  distinct_keys e → allocates (eval_literal e) (represents e).
Proof.
  induction e as [s|b|es IH|fs IH] using literal_ind'; intros Hwf.
  - apply allocates_ret. intros H [|n] _ Hn; [simpl in Hn; lia|done].
  - apply allocates_ret. intros H [|n] _ Hn; [simpl in Hn; lia|done].
  - rewrite eval_literal_arr.
    simpl in Hwf. apply forallb_True in Hwf.
    eapply allocates_bind.
    { apply (allocates_mapM eval_literal represents).
      - intros x Δ Δ' v. apply represents_mono.
      - rewrite Forall_forall in IH, Hwf |- *. intros x Hx.
        apply IH; [done|]. by apply Hwf. }
    intros vs Δ1 Hvs.
    eapply allocates_bind; [apply allocates_alloc|].
    intros l Δ2 ->. apply allocates_ret. intros _ Hdisj H n Hsub Hn.
    rewrite (left_id_L ∅ (∪)) in Hsub, Hdisj.
    destruct n as [|n]; [simpl in Hn; lia|]. rewrite reify_ref.
    rewrite (lookup_weaken _ _ _ _ (lookup_union_Some_l _ Δ1 _ _
               (lookup_singleton_eq l (HArr vs))) Hsub).
    rewrite (reify_elems Δ1 H n es vs Hvs); [done| |].
    + etrans; [|exact Hsub]. by apply map_union_subseteq_r.
    + intros e He. apply depth_elem in He. simpl in Hn. lia.
  - rewrite eval_literal_obj.
    simpl in Hwf. apply andb_True in Hwf as [Hnd Hwf].
    apply bool_decide_unpack in Hnd. apply forallb_True in Hwf.
    eapply allocates_bind.
    { apply (allocates_mapM _
               (λ kf Δ kv, kv.1 = kf.1 ∧ represents kf.2 Δ kv.2)).
      - intros kf Δ Δ' kv Hsub [Hk Hrep]. split; [done|].
        by eapply represents_mono.
      - rewrite Forall_forall in IH, Hwf |- *. intros kf Hkf.
        eapply allocates_bind; [apply IH; [done|by apply Hwf]|].
        intros v Δ1 Hv. apply allocates_ret. intros _.
        by rewrite (left_id_L ∅ (∪)). }
    intros kvs Δ1 Hkvs.
    rewrite foldl_put_field
      by (simpl; by rewrite (fields_keys _ _ _ Hkvs)).
    eapply allocates_bind; [apply allocates_alloc|].
    intros l Δ2 ->. apply allocates_ret. intros _ Hdisj H n Hsub Hn.
    rewrite (left_id_L ∅ (∪)) in Hsub, Hdisj.
    destruct n as [|n]; [simpl in Hn; lia|]. rewrite reify_ref.
    rewrite (lookup_weaken _ _ _ _ (lookup_union_Some_l _ Δ1 _ _
               (lookup_singleton_eq l (HObj kvs))) Hsub).
    rewrite (reify_fields Δ1 H n fs kvs Hkvs); [done| |].
    + etrans; [|exact Hsub]. by apply map_union_subseteq_r.
    + intros kf Hkf. apply depth_field in Hkf. simpl in Hn. lia.
Qed.

(** Evaluating any literal with distinct keys and reading the result back
    gives the literal; the heap only grows and the globals stay. *)
Lemma eval_reify_round_trip (e : literal) (s : state) :
  distinct_keys e →
  ∃ v s',
    eval_literal e s = Normal v s' ∧
    reify (depth e) (heap (st s')) v = Some e ∧
    heap (st s) ⊆ heap (st s') ∧
    window (st s') = window (st s).
Proof.
  intros Hwf.
  destruct (eval_literal_allocates e Hwf s) as (v & Δ & evs & Hrun & Hd & _ & Hrep).
  exists v, (extend s Δ evs). split; [done|]. simpl. split; [|split; [|done]].
  - apply Hrep; [apply map_union_subseteq_l | done].
  - by apply map_union_subseteq_r.
Qed.

(** ** What the trace says *)

Lemma allocs_no_prop_writes evs : Forall is_alloc evs → prop_writes evs = [].
Proof. induction 1 as [|[] evs Hev _ IH]; simpl in *; done. Qed.

Lemma allocs_no_global_writes evs : Forall is_alloc evs → global_writes evs = [].
Proof. induction 1 as [|[] evs Hev _ IH]; simpl in *; done. Qed.

Lemma allocs_no_calls evs : Forall is_alloc evs → calls evs = [].
Proof. induction 1 as [|[] evs Hev _ IH]; simpl in *; done. Qed.

Lemma calls_snoc (t : list event) (ev : event) :
  calls t = [] → calls (t ++ [ev]) = calls [ev].
Proof. intros Ht. unfold calls in *. by rewrite omap_app, Ht. Qed.

Lemma global_writes_snoc (t : list event) (ev : event) :
  global_writes t = [] → global_writes (t ++ [ev]) = global_writes [ev].
Proof. intros Ht. unfold global_writes in *. by rewrite omap_app, Ht. Qed.

(** ** Lines 1 to 5: building the table *)

Lemma alter_union_r (f : hobj → hobj) (l : loc) (Δ h : gmap loc hobj) :
  Δ !! l = None → alter f l (Δ ∪ h) = Δ ∪ alter f l h.
Proof.
  intros Hl. apply map_eq; intros i. destruct (decide (i = l)) as [->|Hne].
  - by rewrite lookup_alter_eq, !lookup_union_r, lookup_alter_eq.
  - rewrite lookup_alter_ne by done.
    destruct (Δ !! i) as [o|] eqn:Hi.
    + by rewrite !(lookup_union_Some_l _ _ _ _ Hi).
    + by rewrite !lookup_union_r, lookup_alter_ne.
Qed.

Lemma disjoint_insert_any (Δ h : gmap loc hobj) (l : loc) (o o' : hobj) :
  Δ ##ₘ <[l := o]> h → Δ ##ₘ <[l := o']> h.
Proof.
  rewrite !map_disjoint_dom, !dom_insert_L. done.
Qed.

Lemma disjoint_insert_lookup (Δ h : gmap loc hobj) (l : loc) (o : hobj) :
  Δ ##ₘ <[l := o]> h → Δ !! l = None.
Proof.
  intros Hd. eapply map_disjoint_Some_r; [exact Hd|]. apply lookup_insert_eq.
Qed.

(** One assignment [implementors[k] = e] while the table is under
    construction: the table object at [l0] holds the fields [fs], and [D] is
    what the earlier literals allocated. *)
Lemma assign_run (e : literal) (k : string) (l0 : loc)
    (fs : list (string * value)) (D h0 : gmap loc hobj)
    (w : gmap string value) (t : list event) :
  distinct_keys e →
  D ##ₘ <[l0 := HObj fs]> h0 →
  ∃ v D' evs,
    (v ← eval_literal e; set_prop l0 k v)
      (State (Store (D ∪ <[l0 := HObj fs]> h0) w) t) =
    Normal tt (State (Store (D' ∪ <[l0 := HObj (put_field k v fs)]> h0) w)
                     (t ++ evs ++ [EvSetProp l0 k v])) ∧
    D ⊆ D' ∧
    D' ##ₘ <[l0 := HObj (put_field k v fs)]> h0 ∧
    Forall is_alloc evs ∧
    represents e D' v.
Proof.
  intros Hwf Hdisj.
  destruct (eval_literal_allocates e Hwf
              (State (Store (D ∪ <[l0 := HObj fs]> h0) w) t))
    as (v & Δ & evs & Hrun & Hd & Hal & Hrep).
  simpl in Hd. apply map_disjoint_union_r in Hd as [HdD Hd0].
  exists v, (Δ ∪ D), evs. split; [|split; [|split; [|split]]].
  - unfold mbind, M_bind, bind. rewrite Hrun, set_prop_run.
    unfold extend; simpl. do 2 f_equal; [|by rewrite app_assoc].
    f_equal. rewrite <-(assoc_L (∪)).
    rewrite alter_union_r by (by eapply disjoint_insert_lookup).
    rewrite alter_union_r by (by eapply disjoint_insert_lookup).
    by rewrite alter_insert_eq.
  - by apply map_union_subseteq_r.
  - apply map_disjoint_union_l. split; by eapply disjoint_insert_any.
  - done.
  - eapply represents_mono; [|exact Hrep]. apply map_union_subseteq_l.
Qed.

Lemma distinct_keys_impls :
  distinct_keys quinn_proto_impls ∧ distinct_keys rustls_impls ∧
  distinct_keys tinyvec_impls ∧ distinct_keys webpki_impls.
Proof. by vm_compute. Qed.

Lemma depth_impls :
  depth quinn_proto_impls = 4 ∧ depth rustls_impls = 4 ∧
  depth tinyvec_impls = 4 ∧ depth webpki_impls = 4.
Proof. by vm_compute. Qed.

(** The table object with its four fields, once the literals it refers to
    are in the heap. *)
Lemma table_holds (H D : gmap loc hobj) (l0 : loc) (v1 v2 v3 v4 : value) :
  H !! l0 = Some (HObj [("quinn_proto", v1); ("rustls", v2);
                        ("tinyvec", v3); ("webpki", v4)]) →
  D ⊆ H →
  represents quinn_proto_impls D v1 → represents rustls_impls D v2 →
  represents tinyvec_impls D v3 → represents webpki_impls D v4 →
  holds H (VRef l0) implementors_table.
Proof.
  intros Hl0 Hsub H1 H2 H3 H4 n Hn.
  destruct depth_impls as (Hd1 & Hd2 & Hd3 & Hd4).
  assert (depth implementors_table = 5) as Hd by (by vm_compute).
  destruct n as [|n]; [lia|]. rewrite reify_ref, Hl0.
  unfold implementors_table. cbn [mapM mbind option_bind fst snd].
  rewrite (H1 H n), (H2 H n), (H3 H n), (H4 H n) by (done || lia).
  done.
Qed.

Lemma build_table_run (σ : store) (t : list event) :
  ∃ l0 s1 evs,
    build_table (State σ t) = Normal l0 s1 ∧
    trace s1 = t ++ evs ∧
    built σ l0 s1 evs.
Proof.
  destruct σ as [h w]. set (l0 := fresh (dom h)).
  assert (h !! l0 = None) as Hfresh by apply not_elem_of_dom, is_fresh.
  destruct distinct_keys_impls as (Hw1 & Hw2 & Hw3 & Hw4).
  assert (∅ ##ₘ <[l0 := HObj []]> h) as Hd0 by apply map_disjoint_empty_l.
  destruct (assign_run quinn_proto_impls "quinn_proto" l0 [] ∅ h w
              (t ++ [EvAlloc l0]) Hw1 Hd0)
    as (v1 & D1 & evs1 & Hrun1 & Hsub1 & Hd1 & Hal1 & Hrep1).
  rewrite (left_id_L ∅ (∪)) in Hrun1.
  change (put_field "quinn_proto" v1 []) with [("quinn_proto", v1)] in *.
  destruct (assign_run rustls_impls "rustls" l0 _ D1 h w
              ((t ++ [EvAlloc l0]) ++ evs1 ++ [EvSetProp l0 "quinn_proto" v1])
              Hw2 Hd1)
    as (v2 & D2 & evs2 & Hrun2 & Hsub2 & Hd2 & Hal2 & Hrep2).
  change (put_field "rustls" v2 _)
    with [("quinn_proto", v1); ("rustls", v2)] in *.
  destruct (assign_run tinyvec_impls "tinyvec" l0 _ D2 h w
              (((t ++ [EvAlloc l0]) ++ evs1 ++ [EvSetProp l0 "quinn_proto" v1])
                 ++ evs2 ++ [EvSetProp l0 "rustls" v2])
              Hw3 Hd2)
    as (v3 & D3 & evs3 & Hrun3 & Hsub3 & Hd3 & Hal3 & Hrep3).
  change (put_field "tinyvec" v3 _)
    with [("quinn_proto", v1); ("rustls", v2); ("tinyvec", v3)] in *.
  destruct (assign_run webpki_impls "webpki" l0 _ D3 h w
              ((((t ++ [EvAlloc l0]) ++ evs1 ++ [EvSetProp l0 "quinn_proto" v1])
                  ++ evs2 ++ [EvSetProp l0 "rustls" v2])
                 ++ evs3 ++ [EvSetProp l0 "tinyvec" v3])
              Hw4 Hd3)
    as (v4 & D4 & evs4 & Hrun4 & Hsub4 & Hd4 & Hal4 & Hrep4).
  change (put_field "webpki" v4 _)
    with [("quinn_proto", v1); ("rustls", v2); ("tinyvec", v3); ("webpki", v4)]
    in *.
  eexists l0, _, ([EvAlloc l0] ++ (evs1 ++ [EvSetProp l0 "quinn_proto" v1])
                    ++ (evs2 ++ [EvSetProp l0 "rustls" v2])
                    ++ (evs3 ++ [EvSetProp l0 "tinyvec" v3])
                    ++ (evs4 ++ [EvSetProp l0 "webpki" v4])).
  split; [|split].
  - unfold build_table, new_object.
    rewrite (bind_normal _ _ _ _ _ (alloc_run _ _)).
    rewrite (bind_normal _ _ _ _ _ Hrun1).
    rewrite (bind_normal _ _ _ _ _ Hrun2).
    rewrite (bind_normal _ _ _ _ _ Hrun3).
    rewrite (bind_normal _ _ _ _ _ Hrun4).
    reflexivity.
  - simpl. by rewrite <-!app_assoc.
  - assert (D4 !! l0 = None) as HD4 by (by eapply disjoint_insert_lookup).
    split; cbn [heap st window].
    + done.
    + etrans; [|apply map_union_subseteq_r; exact Hd4].
      by apply insert_subseteq.
    + done.
    + apply (table_holds _ D4 l0 v1 v2 v3 v4).
      * by rewrite lookup_union_r, lookup_insert_eq.
      * apply map_union_subseteq_l.
      * eapply represents_mono; [|exact Hrep1]. by do 3 (etrans; [|done]).
      * eapply represents_mono; [|exact Hrep2]. by do 2 (etrans; [|done]).
      * eapply represents_mono; [|exact Hrep3]. by etrans.
      * done.
    + unfold prop_writes. rewrite !omap_app.
      fold (prop_writes evs1) (prop_writes evs2) (prop_writes evs3)
        (prop_writes evs4).
      by rewrite (allocs_no_prop_writes _ Hal1), (allocs_no_prop_writes _ Hal2),
        (allocs_no_prop_writes _ Hal3), (allocs_no_prop_writes _ Hal4).
    + unfold global_writes. rewrite !omap_app.
      fold (global_writes evs1) (global_writes evs2) (global_writes evs3)
        (global_writes evs4).
      by rewrite (allocs_no_global_writes _ Hal1), (allocs_no_global_writes _ Hal2),
        (allocs_no_global_writes _ Hal3), (allocs_no_global_writes _ Hal4).
    + unfold calls. rewrite !omap_app.
      fold (calls evs1) (calls evs2) (calls evs3) (calls evs4).
      by rewrite (allocs_no_calls _ Hal1), (allocs_no_calls _ Hal2),
        (allocs_no_calls _ Hal3), (allocs_no_calls _ Hal4).
Qed.

Lemma holds_serialize h v :
  holds h v implementors_table → serialize h v = Some implementors_table.
Proof. intros Hh. apply Hh. by vm_compute. Qed.

Lemma built_table_eq (σ : store) : built_table σ = Some implementors_table.
Proof.
  destruct (build_table_run σ []) as (l & s1 & evs & Hrun & _ & Hb).
  unfold built_table. rewrite Hrun.
  apply holds_serialize, (built_holds _ _ _ _ Hb).
Qed.

(** ** Line 6: the dispatch *)

Section dispatch.

Variable host : host_env.

Lemma dispatch_run (l : loc) (s : state) :
  dispatch host l s =
  if to_boolean (hook_of (st s)) then
    match call host (hook_of (st s)) [VRef l] s with
    | Normal _ s' => Normal tt s'
    | Abrupt e s' => Abrupt e s'
    end
  else
    Normal tt (State (Store (heap (st s))
                            (<["pending_implementors" := VRef l]> (window (st s))))
                     (trace s ++ [EvSetGlobal "pending_implementors" (VRef l)])).
Proof.
  unfold dispatch, mbind, M_bind, bind, get_window. simpl.
  fold (hook_of (st s)). by destruct (to_boolean (hook_of (st s))).
Qed.

Lemma call_function (f : fid) (args : list value) (s : state) :
  call host (VFun f) args s =
  match host f args (st s) with
  | Returns v σ' => Normal v (State σ' (trace s ++ [EvCall f args (st s)]))
  | Throws v σ' =>
      Abrupt (Thrown v) (State σ' (trace s ++ [EvCall f args (st s)]))
  end.
Proof.
  unfold call, mbind, M_bind, bind. simpl. by destruct (host f args (st s)).
Qed.

Lemma dispatch_falsy (l : loc) (s : state) :
  to_boolean (hook_of (st s)) = false →
  dispatch host l s =
  Normal tt (State (Store (heap (st s))
                          (<["pending_implementors" := VRef l]> (window (st s))))
                   (trace s ++ [EvSetGlobal "pending_implementors" (VRef l)])).
Proof. intros Hf. by rewrite dispatch_run, Hf. Qed.

Lemma dispatch_function (l : loc) (s : state) (f : fid) :
  hook_of (st s) = VFun f →
  dispatch host l s =
  match host f [VRef l] (st s) with
  | Returns _ σ' =>
      Normal tt (State σ' (trace s ++ [EvCall f [VRef l] (st s)]))
  | Throws v σ' =>
      Abrupt (Thrown v) (State σ' (trace s ++ [EvCall f [VRef l] (st s)]))
  end.
Proof.
  intros Hf. rewrite dispatch_run, Hf, call_function. simpl.
  by destruct (host f [VRef l] (st s)).
Qed.

Lemma dispatch_not_callable (l : loc) (s : state) :
  to_boolean (hook_of (st s)) = true →
  (∀ f, hook_of (st s) ≠ VFun f) →
  dispatch host l s = Abrupt (TypeError "is not a function") s.
Proof.
  intros Ht Hnf. rewrite dispatch_run, Ht.
  destruct (hook_of (st s)) as [| | | | | |f] eqn:Hh; try done.
  by destruct (Hnf f).
Qed.

Lemma dispatch_cases (l : loc) (s : state) :
  dispatch_case host l s (dispatch host l s).
Proof.
  destruct (to_boolean (hook_of (st s))) eqn:Ht.
  - destruct (decide (∃ f, hook_of (st s) = VFun f)) as [[f Hh]|Hnf].
    + rewrite (dispatch_function l s f Hh).
      destruct (host f [VRef l] (st s)) as [v σ'|v σ'] eqn:Hcall.
      * by eapply case_returned.
      * by eapply case_thrown.
    + assert (∀ f, hook_of (st s) ≠ VFun f) as Hnf' by naive_solver.
      rewrite dispatch_not_callable by done. by apply case_not_callable.
  - rewrite dispatch_falsy by done. by apply case_pending.
Qed.

Lemma load_run (σ : store) :
  ∃ l s1,
    build_table (State σ []) = Normal l s1 ∧
    built σ l s1 (trace s1) ∧
    hook_of (st s1) = hook_of σ ∧
    load host σ = dispatch host l s1.
Proof.
  destruct (build_table_run σ []) as (l & s1 & evs & Hrun & Htr & Hb).
  simpl in Htr. subst evs. exists l, s1. split; [done|split; [done|split]].
  - unfold hook_of. by rewrite (built_window _ _ _ _ Hb).
  - unfold load, script. by rewrite (bind_normal _ _ _ _ _ Hrun).
Qed.

End dispatch.

(** ** Growing the heap *)

(** What reads back from a heap reads back from every larger heap. *)
Lemma reify_mono (n : nat) (h h' : gmap loc hobj) (v : value) (e : literal) :
  h ⊆ h' → reify n h v = Some e → reify n h' v = Some e.
Proof.
  intros Hsub. revert v e.
  induction n as [|n IH]; intros v e; [done|].
  destruct v as [| | | | |l|]; try done.
  rewrite !reify_ref. destruct (h !! l) as [o|] eqn:Hl; [|done].
  rewrite (lookup_weaken _ _ _ _ Hl Hsub). destruct o as [fs|vs].
  - destruct (mapM _ fs) as [es|] eqn:Hfs; [|done]. intros [= <-].
    apply mapM_Some in Hfs.
    assert (mapM (λ kv, e ← reify n h' kv.2; Some (kv.1, e)) fs = Some es)
      as ->; [|done].
    apply mapM_Some. eapply Forall2_impl; [exact Hfs|].
    intros [k v] kf. simpl.
    destruct (reify n h v) as [e|] eqn:Hv; [|done].
    by rewrite (IH _ _ Hv).
  - destruct (mapM _ vs) as [es|] eqn:Hvs; [|done]. intros [= <-].
    apply mapM_Some in Hvs.
    assert (mapM (reify n h') vs = Some es) as ->; [|done].
    apply mapM_Some. eapply Forall2_impl; [exact Hvs|]. intros v e. apply IH.
Qed.

Lemma assoc_elem (k : string) (fs : list (string * literal)) (e : literal) :
  assoc k fs = Some e → (k, e) ∈ fs.
Proof.
  induction fs as [|[k' e'] fs IH]; simpl; [done|].
  destruct (String.eqb_spec k k') as [->|_].
  - intros [= ->]. left.
  - intros Hk. right. by apply IH.
Qed.

Lemma string_prefix_app (p s : string) :
  String.prefix p s → ∃ r, s = p +:+ r.
Proof.
  revert s. induction p as [|a p IH]; intros [|b s]; simpl; try done.
  - intros _. by exists "".
  - intros _. by exists (String b s).
  - destruct (Ascii.ascii_dec a b) as [->|_]; [|done].
    intros [r ->]%IH. by exists r.
Qed.

(** ** The script on sample pages *)

Example empty_page_run :
  let o := load quiet_host empty_page in
  completes o = true ∧
  length (trace (final o)) = 28 ∧
  calls (trace (final o)) = [] ∧
  global_writes (trace (final o)) = [("pending_implementors", VRef 0)] ∧
  window (st (final o)) !! "pending_implementors" = Some (VRef 0).
Proof. by vm_compute. Qed.

Example page_with_hook_run :
  let o := load quiet_host page_with_hook in
  completes o = true ∧
  fst <$> calls (trace (final o)) = [(0, [VRef 0])] ∧
  global_writes (trace (final o)) = [] ∧
  window (st (final o)) !! "pending_implementors" = None.
Proof. by vm_compute. Qed.

Example page_with_null_run :
  let o := load quiet_host page_with_null in
  completes o = true ∧
  calls (trace (final o)) = [] ∧
  global_writes (trace (final o)) = [("pending_implementors", VRef 0)].
Proof. by vm_compute. Qed.

Example throwing_hook_run :
  let o := load throwing_host page_with_hook in
  completes o = false ∧
  fst <$> calls (trace (final o)) = [(0, [VRef 0])] ∧
  global_writes (trace (final o)) = [].
Proof. by vm_compute. Qed.

Example table_of_empty_page :
  built_table empty_page = Some implementors_table.
Proof. by vm_compute. Qed.

(** * The claims *)

(** C1. If the registration hook ([window.register_implementors]) is defined
    (it holds a function [f]) before the script loads, then running the
    script invokes [f] exactly once, with one argument, and that argument is
    the complete table: in the store the hook is entered with it serialises
    to [implementors_table], all four keys with all their records.  This
    holds whether the hook then returns or throws. *)
Theorem hook_invoked_once_with_table (host : host_env) (σ : store) (f : fid) :
  hook_of σ = VFun f →
  ∃ tbl σc,
    calls (trace (final (load host σ))) = [(f, [tbl], σc)] ∧
    serialize (heap σc) tbl = Some implementors_table.
Proof.
  intros Hf.
  destruct (load_run host σ) as (l & s1 & _ & Hb & Hhook & ->).
  rewrite (dispatch_function host l s1 f) by congruence.
  exists (VRef l), (st s1). split.
  - destruct (host f [VRef l] (st s1)); simpl;
      unfold calls; rewrite omap_app; fold (calls (trace s1));
      by rewrite (built_no_call _ _ _ _ Hb).
  - apply holds_serialize, (built_holds _ _ _ _ Hb).
Qed.

Lemma hook_invoked_once_with_table_witness :
  ∃ tbl σc,
    calls (trace (final (load quiet_host page_with_hook))) = [(0, [tbl], σc)] ∧
    serialize (heap σc) tbl = Some implementors_table.
Proof. apply hook_invoked_once_with_table. reflexivity. Defined.

(** C2. If no registration hook is defined before the script loads (the
    slot is missing, [undefined], or holds any other falsy value), the script
    completes, [window.pending_implementors] then holds the complete table,
    and no function was invoked. *)
Theorem pending_slot_holds_table (host : host_env) (σ : store) :
  to_boolean (hook_of σ) = false →
  ∃ tbl s',
    load host σ = Normal tt s' ∧
    window (st s') !! "pending_implementors" = Some tbl ∧
    serialize (heap (st s')) tbl = Some implementors_table ∧
    calls (trace s') = [].
Proof.
  intros Hf.
  destruct (load_run host σ) as (l & s1 & _ & Hb & Hhook & ->).
  rewrite dispatch_falsy by congruence.
  eexists (VRef l), _. split; [reflexivity|]. simpl. split; [|split].
  - apply lookup_insert_eq.
  - apply holds_serialize, (built_holds _ _ _ _ Hb).
  - unfold calls. rewrite omap_app. fold (calls (trace s1)).
    by rewrite (built_no_call _ _ _ _ Hb).
Qed.

Lemma pending_slot_holds_table_witness :
  ∃ tbl s',
    load quiet_host empty_page = Normal tt s' ∧
    window (st s') !! "pending_implementors" = Some tbl ∧
    serialize (heap (st s')) tbl = Some implementors_table ∧
    calls (trace s') = [].
Proof. apply pending_slot_holds_table. reflexivity. Defined.

(** C3. The constructed table has exactly the keys "quinn_proto", "rustls",
    "tinyvec" and "webpki", in this order, mapped to sequences of 4, 2, 1 and
    2 records; every key holds a non-empty sequence. *)
Theorem table_keys_and_cardinalities (σ : store) :
  ∃ t, built_table σ = Some t ∧
    keys t = ["quinn_proto"; "rustls"; "tinyvec"; "webpki"] ∧
    length <$> records t "quinn_proto" = Some 4 ∧
    length <$> records t "rustls" = Some 2 ∧
    length <$> records t "tinyvec" = Some 1 ∧
    length <$> records t "webpki" = Some 2 ∧
    ∀ k, k ∈ keys t → ∃ es, records t k = Some es ∧ es ≠ [].
Proof.
  exists implementors_table. split; [apply built_table_eq|].
  repeat (split; [reflexivity|]).
  intros k Hk. change (keys implementors_table)
    with ["quinn_proto"; "rustls"; "tinyvec"; "webpki"] in Hk.
  repeat (apply elem_of_cons in Hk as [->|Hk];
          [eexists; split; [reflexivity|discriminate]|]).
  by apply elem_of_nil in Hk.
Qed.



(** C5. The keys of the table are unique: the four assignments name four
    different keys of one object, and the table they build has no key twice.
    After construction the script mutates nothing in the heap: what it adds to
    the trace holds no property assignment and no allocation, the hook (when
    called) is entered with the heap as built, and without a call the heap at
    the end is the heap as built. *)
Theorem keys_unique_table_immutable (host : host_env) (σ : store) :
  ∃ l s1,
    build_table (State σ []) = Normal l s1 ∧
    Forall (λ w, w.1 = l) (prop_writes (trace s1)).*1 ∧
    NoDup (prop_writes (trace s1)).*1.*2 ∧
    (∃ t, serialize (heap (st s1)) (VRef l) = Some t ∧ NoDup (keys t)) ∧
    ∃ evs,
      trace (final (load host σ)) = trace s1 ++ evs ∧
      prop_writes evs = [] ∧
      Forall (λ ev, ¬ is_alloc ev) evs ∧
      (∀ f args σc, (f, args, σc) ∈ calls evs → heap σc = heap (st s1)) ∧
      (calls evs = [] → heap (st (final (load host σ))) = heap (st s1)).
Proof.
  destruct (load_run host σ) as (l & s1 & Hrun & Hb & Hhook & ->).
  exists l, s1. split; [done|]. clear Hrun.
  rewrite (built_assigns _ _ _ _ Hb). split; [|split; [|split]].
  - by repeat constructor.
  - apply (bool_decide_unpack _). by vm_compute.
  - exists implementors_table. split.
    + apply holds_serialize, (built_holds _ _ _ _ Hb).
    + apply (bool_decide_unpack _). by vm_compute.
  - destruct (dispatch_cases host l s1) as [Hf|f v σ' Hf Hcall|f v σ' Hf Hcall|Ht Hnf];
      cbn [final trace st heap].
    + exists [EvSetGlobal "pending_implementors" (VRef l)].
      split; [done|]. split; [done|]. split; [|split; [|done]].
      * repeat constructor. by intros [].
      * intros f args σc Hin. by apply elem_of_nil in Hin.
    + exists [EvCall f [VRef l] (st s1)].
      split; [done|]. split; [done|]. split; [|split; [|done]].
      * repeat constructor. by intros [].
      * intros g args σc Hin%list_elem_of_singleton. by simplify_eq.
    + exists [EvCall f [VRef l] (st s1)].
      split; [done|]. split; [done|]. split; [|split; [|done]].
      * repeat constructor. by intros [].
      * intros g args σc Hin%list_elem_of_singleton. by simplify_eq.
    + exists []. split; [by rewrite app_nil_r|]. split; [done|].
      split; [constructor|split; [|done]].
      intros f args σc Hin. by apply elem_of_nil in Hin.
Qed.

(** C6. Every record under every key of the constructed table has exactly
    the fields [text] (a string), [synthetic] (a boolean) and [types] (a
    sequence of strings), under these names. *)
Theorem records_have_renderer_shape (σ : store) :
  ∃ t, built_table σ = Some t ∧
    ∀ k es r, records t k = Some es → r ∈ es →
      ∃ text synthetic types,
        r = LObj [("text", LStr text); ("synthetic", LBool synthetic);
                  ("types", LArr (LStr <$> types))].
Proof.
  exists implementors_table. split; [apply built_table_eq|].
  intros k es r Hk Hr. apply (records_all_records _ _ _ Hk) in Hr. clear Hk.
  assert (Forall (λ r, is_record r) (all_records implementors_table)) as Hall
    by (apply forallb_True; by vm_compute).
  rewrite Forall_forall in Hall. apply Hall in Hr. clear Hall.
  destruct r as [| | |[|[k1 [t1| | |]] [|[k2 [|b2| |]] [|[k3 [| |ts|]] [|]]]]];
    try done.
  simpl in Hr. repeat (apply andb_True in Hr as [Hr ?]).
  repeat match goal with
         | H : Is_true (String.eqb _ _) |- _ =>
             apply Is_true_eq_true, String.eqb_eq in H; subst
         end.
  match goal with H : Is_true (forallb is_string ts) |- _ =>
    destruct (strings_fmap ts H) as [ss ->]
  end.
  by exists t1, b2, ss.
Qed.

(** C7, as the code has it.  The load completes without error whenever the
    hook slot is falsy (hook absent: the fallback branch, normal control
    flow) or holds a function whose call by the script, with the table as its
    one argument on the store lines 1 to 5 built, returns.  With a truthy
    value that is not a function the call of line 6 raises a TypeError, and
    when the hook throws a value the script throws that value.  These are all
    the cases. *)
Theorem load_completes (host : host_env) (σ : store) :
  ∃ l s1,
    build_table (State σ []) = Normal l s1 ∧
    if to_boolean (hook_of σ) then
      match hook_of σ with
      | VFun f =>
          match host f [VRef l] (st s1) with
          | Returns _ _ => ∃ s, load host σ = Normal tt s
          | Throws v _ => ∃ s, load host σ = Abrupt (Thrown v) s
          end
      | _ => ∃ s, load host σ = Abrupt (TypeError "is not a function") s
      end
    else ∃ s, load host σ = Normal tt s.
Proof.
  destruct (load_run host σ) as (l & s1 & Hrun & _ & Hhook & ->).
  exists l, s1. split; [exact Hrun|]. clear Hrun.
  rewrite <-Hhook. clear Hhook.
  destruct (dispatch_cases host l s1)
    as [Hf|f v σ' Hf Hcall|f v σ' Hf Hcall|Ht Hnf].
  - rewrite Hf. by eexists.
  - rewrite Hf. simpl. rewrite Hcall. by eexists.
  - rewrite Hf. simpl. rewrite Hcall. by eexists.
  - rewrite Ht.
    destruct (hook_of (st s1)) as [| | | | | |f] eqn:Hh; try by eexists.
    by destruct (Hnf f).
Qed.

(** C7 as stated fails.  With the number 1 in the hook slot the test of
    line 6 succeeds and the call raises a TypeError; and when the hook is a
    function that throws, the exception leaves the script. *)
Lemma load_can_fail :
  (∃ s, load quiet_host page_with_number =
        Abrupt (TypeError "is not a function") s) ∧
  (∃ s, load throwing_host page_with_hook =
        Abrupt (Thrown (VStr "boom")) s).
Proof. split; eexists; by vm_compute. Qed.

(** C8. Serialising the constructed table back to literal form gives the
    literal the source wrote: the four keys in order, each with its array of
    records as written on lines 2 to 5. *)
Theorem serialize_round_trip (σ : store) :
  ∃ l s1,
    build_table (State σ []) = Normal l s1 ∧
    serialize (heap (st s1)) (VRef l) =
    Some (LObj [("quinn_proto", quinn_proto_impls); ("rustls", rustls_impls);
                ("tinyvec", tinyvec_impls); ("webpki", webpki_impls)]).
Proof.
  destruct (build_table_run σ []) as (l & s1 & evs & Hrun & _ & Hb).
  exists l, s1. split; [done|].
  apply holds_serialize, (built_holds _ _ _ _ Hb).
Qed.

(** C9, as the code has it.  In every execution the script writes at most
    one global slot, at most once, and that slot is [pending_implementors];
    it calls at most one function; it never both calls and writes.  It does
    exactly one of the two if and only if the hook slot is falsy or holds a
    function: a falsy slot gives the one write and no call, a function gives
    the one call and no write, and any other slot gives neither.  The hook is
    entered with the globals as the page had them, and after it the script
    touches nothing (the store at the end is the one the hook left).  Without
    a call every global other than the pending slot is as the page had it.
    When the hook slot is truthy the script writes no global, so the pending
    slot is left as it was. *)
Theorem one_global_effect (host : host_env) (σ : store) :
  let o := load host σ in
  let t := trace (final o) in
  length (global_writes t) ≤ 1 ∧
  length (calls t) ≤ 1 ∧
  (∀ k v, (k, v) ∈ global_writes t → k = "pending_implementors") ∧
  (calls t = [] ∨ global_writes t = []) ∧
  (length (calls t) + length (global_writes t) = 1 ↔
     to_boolean (hook_of σ) = false ∨ ∃ f, hook_of σ = VFun f) ∧
  (∀ f args σc, (f, args, σc) ∈ calls t →
     window σc = window σ ∧
     match host f args σc with
     | Returns _ σ' | Throws _ σ' => st (final o) = σ'
     end) ∧
  (calls t = [] → ∀ k, k ≠ "pending_implementors" →
     window (st (final o)) !! k = window σ !! k) ∧
  (to_boolean (hook_of σ) = true →
     global_writes t = [] ∧
     (calls t = [] → window (st (final o)) = window σ)) ∧
  (if to_boolean (hook_of σ) then
     match hook_of σ with
     | VFun f =>
         ∃ l σc,
           calls t = [(f, [VRef l], σc)] ∧ global_writes t = [] ∧
           window σc = window σ ∧
           match host f [VRef l] σc with
           | Returns _ σ' | Throws _ σ' => st (final o) = σ'
           end
     | _ =>
         calls t = [] ∧ global_writes t = [] ∧
         window (st (final o)) = window σ
     end
   else
     ∃ l,
       calls t = [] ∧
       global_writes t = [("pending_implementors", VRef l)] ∧
       window (st (final o)) =
         <["pending_implementors" := VRef l]> (window σ)).
Proof.
  cbv zeta.
  destruct (load_run host σ) as (l & s1 & _ & Hb & Hhook & ->).
  pose proof (built_no_call _ _ _ _ Hb) as Hnc.
  pose proof (built_no_global _ _ _ _ Hb) as Hng.
  pose proof (built_window _ _ _ _ Hb) as Hw.
  rewrite <-Hhook. clear Hb Hhook.
  destruct (dispatch_cases host l s1)
    as [Hf|f v σ' Hf Hcall|f v σ' Hf Hcall|Ht Hnf];
    cbn [final trace st window completes];
    rewrite ?(calls_snoc _ _ Hnc), ?(global_writes_snoc _ _ Hng), ?Hnc, ?Hng;
    simpl.
  - rewrite Hf. split_and!; trace_solver.
    + by rewrite lookup_insert_ne, Hw.
    + exists l. by rewrite Hw.
  - rewrite Hf. split_and!; trace_solver.
    + split; [|done]. intros _. right. by exists f.
    + by rewrite Hcall.
    + simpl. exists l, (st s1). split_and!; [done..|by rewrite Hcall].
  - rewrite Hf. split_and!; trace_solver.
    + split; [|done]. intros _. right. by exists f.
    + by rewrite Hcall.
    + simpl. exists l, (st s1). split_and!; [done..|by rewrite Hcall].
  - rewrite Ht. split_and!; trace_solver.
    + split; [done|]. intros [?|[f Hfun]]; [done|by destruct (Hnf f)].
    + by rewrite Hw.
    + destruct (hook_of (st s1)) as [| | | | | |f] eqn:Hh; try done.
      by destruct (Hnf f).
Qed.

(** C9 as stated fails in "either invokes the hook or writes the pending
    slot": with the number 1 in the hook slot the run does neither. *)
Lemma neither_call_nor_write :
  completes (load quiet_host page_with_number) = false ∧
  calls (trace (final (load quiet_host page_with_number))) = [] ∧
  global_writes (trace (final (load quiet_host page_with_number))) = [].
Proof. by vm_compute. Qed.

(** C10. Every record under every key of the constructed table has its
    [synthetic] flag equal to [false], and its [types] sequence holds exactly
    one type identifier. *)
Theorem records_not_synthetic_one_type (σ : store) :
  ∃ t, built_table σ = Some t ∧
    ∀ k es r, records t k = Some es → r ∈ es →
      field "synthetic" r = Some (LBool false) ∧
      ∃ ty, field "types" r = Some (LArr [LStr ty]).
Proof.
  exists implementors_table. split; [apply built_table_eq|].
  intros k es r Hk Hr. apply (records_all_records _ _ _ Hk) in Hr. clear Hk.
  revert r Hr. apply Forall_forall.
  unfold all_records, implementors_table, quinn_proto_impls, rustls_impls,
    tinyvec_impls, webpki_impls.
  cbn [omap list_omap elements snd concat app].
  repeat (apply List.Forall_cons;
          [cbv beta; split; [reflexivity | eexists; reflexivity]|]).
  apply List.Forall_nil.
Qed.

(** * Further properties of the script *)

(** X1. The table is a new object, and the script changes no object the page
    already had: the location of the table is unused in the page's heap, and
    every object of the page's heap is still there, as it was, after lines 1
    to 5, at the entry of the hook, and (when no function is called) at the
    end of the run. *)
Theorem page_objects_untouched (host : host_env) (σ : store) :
  ∃ l s1,
    build_table (State σ []) = Normal l s1 ∧
    heap σ !! l = None ∧
    heap σ ⊆ heap (st s1) ∧
    (∀ f args σc, (f, args, σc) ∈ calls (trace (final (load host σ))) →
       args = [VRef l] ∧ heap σ ⊆ heap σc) ∧
    (calls (trace (final (load host σ))) = [] →
       heap σ ⊆ heap (st (final (load host σ)))).
Proof.
  destruct (load_run host σ) as (l & s1 & Hrun & Hb & _ & ->).
  exists l, s1. split; [done|]. clear Hrun.
  pose proof (built_no_call _ _ _ _ Hb) as Hnc.
  pose proof (built_frame _ _ _ _ Hb) as Hfr.
  split; [exact (built_fresh _ _ _ _ Hb)|]. split; [done|]. clear Hb.
  destruct (dispatch_cases host l s1)
    as [Hf|f v σ' Hf Hcall|f v σ' Hf Hcall|Ht Hnf];
    cbn [final trace st heap];
    rewrite ?(calls_snoc _ _ Hnc), ?Hnc; simpl; split; trace_solver.
Qed.

(** X2. A truthy value in the hook slot that is not a function makes the run
    end in a TypeError raised by the call of line 6.  The table is then
    neither handed to anything nor stored: no function is called, no global
    is written, and the globals at the end are the globals of the page. *)
Theorem truthy_non_function_is_type_error (host : host_env) (σ : store) :
  to_boolean (hook_of σ) = true →
  (∀ f, hook_of σ ≠ VFun f) →
  ∃ s,
    load host σ = Abrupt (TypeError "is not a function") s ∧
    calls (trace s) = [] ∧
    global_writes (trace s) = [] ∧
    window (st s) = window σ.
Proof.
  intros Ht Hnf.
  destruct (load_run host σ) as (l & s1 & _ & Hb & Hhook & ->).
  rewrite <-Hhook in Ht, Hnf.
  rewrite dispatch_not_callable by done. exists s1.
  split; [done|]. split; [exact (built_no_call _ _ _ _ Hb)|].
  split; [exact (built_no_global _ _ _ _ Hb)|exact (built_window _ _ _ _ Hb)].
Qed.

Lemma truthy_non_function_is_type_error_witness :
  ∃ s,
    load quiet_host page_with_number =
      Abrupt (TypeError "is not a function") s ∧
    calls (trace s) = [] ∧
    global_writes (trace s) = [] ∧
    window (st s) = window page_with_number.
Proof.
  apply truthy_non_function_is_type_error; [reflexivity|].
  intros f Hf. vm_compute in Hf. discriminate Hf.
Defined.

(** X3. With a function in the hook slot the run ends as the hook ends, on
    the store lines 1 to 5 built: when the hook returns, the script completes
    (whatever value was returned is dropped) with the store the hook left;
    when the hook throws a value, the script throws that value, again with
    the store the hook left.  Nothing is caught and nothing runs after the
    call. *)
Theorem load_ends_as_hook_ends (host : host_env) (σ : store) (f : fid) :
  hook_of σ = VFun f →
  ∃ l s1,
    build_table (State σ []) = Normal l s1 ∧
    window (st s1) = window σ ∧
    match host f [VRef l] (st s1) with
    | Returns _ σ' =>
        ∃ s, load host σ = Normal tt s ∧ st s = σ'
    | Throws v σ' =>
        ∃ s, load host σ = Abrupt (Thrown v) s ∧ st s = σ'
    end.
Proof.
  intros Hf.
  destruct (load_run host σ) as (l & s1 & Hrun & Hb & Hhook & ->).
  exists l, s1. split; [done|]. split; [exact (built_window _ _ _ _ Hb)|].
  clear Hrun Hb. rewrite (dispatch_function host l s1 f) by congruence.
  destruct (host f [VRef l] (st s1)); by eexists.
Qed.

Lemma load_ends_as_hook_ends_witness :
  ∃ l s1,
    build_table (State page_with_hook []) = Normal l s1 ∧
    window (st s1) = window page_with_hook ∧
    match throwing_host 0 [VRef l] (st s1) with
    | Returns _ σ' =>
        ∃ s, load throwing_host page_with_hook = Normal tt s ∧ st s = σ'
    | Throws v σ' =>
        ∃ s, load throwing_host page_with_hook = Abrupt (Thrown v) s ∧ st s = σ'
    end.
Proof. apply load_ends_as_hook_ends. reflexivity. Defined.

(** X4. Loading the script twice on a page without a hook: both runs
    complete, each builds a table of its own (two different objects), the
    pending slot ends up referring to the second one, and both tables still
    serialise to the source table in the final heap.  The first table is
    dropped from the slot, not changed. *)
Theorem second_load_replaces_pending (host : host_env) (σ : store) :
  to_boolean (hook_of σ) = false →
  ∃ l1 l2 s1 s2,
    load host σ = Normal tt s1 ∧
    load host (st s1) = Normal tt s2 ∧
    window (st s1) !! "pending_implementors" = Some (VRef l1) ∧
    window (st s2) !! "pending_implementors" = Some (VRef l2) ∧
    l1 ≠ l2 ∧
    serialize (heap (st s2)) (VRef l1) = Some implementors_table ∧
    serialize (heap (st s2)) (VRef l2) = Some implementors_table.
Proof.
  intros Hf.
  destruct (load_run host σ) as (l1 & t1 & _ & Hb1 & Hhook1 & Hload1).
  rewrite dispatch_falsy in Hload1 by congruence.
  set (s1 := State (Store (heap (st t1))
                (<["pending_implementors" := VRef l1]> (window (st t1))))
                (trace t1 ++ [EvSetGlobal "pending_implementors" (VRef l1)]))
    in Hload1.
  assert (to_boolean (hook_of (st s1)) = false) as Hf1.
  { unfold hook_of, s1. cbn [st window]. rewrite lookup_insert_ne by done.
    rewrite (built_window _ _ _ _ Hb1). exact Hf. }
  destruct (load_run host (st s1)) as (l2 & t2 & _ & Hb2 & Hhook2 & Hload2).
  rewrite dispatch_falsy in Hload2 by congruence.
  pose proof (holds_serialize _ _ (built_holds _ _ _ _ Hb1)) as Hser1.
  pose proof (holds_serialize _ _ (built_holds _ _ _ _ Hb2)) as Hser2.
  pose proof (built_fresh _ _ _ _ Hb2) as Hfresh2.
  pose proof (built_frame _ _ _ _ Hb2) as Hframe2.
  clear Hb1 Hb2 Hhook1 Hhook2.
  eexists l1, l2, s1, _. split; [exact Hload1|]. split; [exact Hload2|].
  clear Hload1 Hload2 Hf1. subst s1. cbn [st window heap] in *.
  split; [apply lookup_insert_eq|]. split; [apply lookup_insert_eq|].
  split; [|split].
  - intros <-. unfold serialize, table_nesting in Hser1.
    rewrite reify_ref, Hfresh2 in Hser1. discriminate Hser1.
  - by apply (reify_mono _ _ _ _ _ Hframe2).
  - done.
Qed.

Lemma second_load_replaces_pending_witness :
  ∃ l1 l2 s1 s2,
    load quiet_host empty_page = Normal tt s1 ∧
    load quiet_host (st s1) = Normal tt s2 ∧
    window (st s1) !! "pending_implementors" = Some (VRef l1) ∧
    window (st s2) !! "pending_implementors" = Some (VRef l2) ∧
    l1 ≠ l2 ∧
    serialize (heap (st s2)) (VRef l1) = Some implementors_table ∧
    serialize (heap (st s2)) (VRef l2) = Some implementors_table.
Proof. apply second_load_replaces_pending. reflexivity. Defined.

(** X5. Under every key of the constructed table, every type identifier of
    every record names an item of that library: it starts with the key
    followed by [::]. *)
Theorem types_belong_to_their_crate (σ : store) :
  ∃ t, built_table σ = Some t ∧
    ∀ k es r ty, records t k = Some es → r ∈ es → ty ∈ record_types r →
      ∃ path, ty = LStr ((k +:+ "::") +:+ path).
Proof.
  exists implementors_table. split; [apply built_table_eq|].
  intros k es r ty Hk Hr Hty.
  assert (types_in_crate implementors_table) as Hall by (by vm_compute).
  unfold records, field, implementors_table in Hk.
  destruct (assoc k _) as [e|] eqn:Hassoc; [|done].
  destruct e as [| |es'|]; try done. simpl in Hk. injection Hk as ->.
  apply assoc_elem in Hassoc.
  unfold types_in_crate, implementors_table in Hall.
  apply forallb_True in Hall. rewrite Forall_forall in Hall.
  apply Hall in Hassoc. cbn [fst snd] in Hassoc.
  apply forallb_True in Hassoc. rewrite Forall_forall in Hassoc.
  apply Hassoc in Hr. apply forallb_True in Hr. rewrite Forall_forall in Hr.
  apply Hr in Hty. destruct ty as [s| | |]; try done. simpl in Hty.
  apply string_prefix_app in Hty as [path ->].
  by exists path.
Qed.

(** X6. No implementation is listed twice: every record of the constructed
    table has a display string, and the display strings of the whole table
    are pairwise different. *)
Theorem display_texts_distinct (σ : store) :
  ∃ t, built_table σ = Some t ∧
    length (texts (all_records t)) = length (all_records t) ∧
    NoDup (texts (all_records t)).
Proof.
  exists implementors_table. split; [apply built_table_eq|].
  split; [by vm_compute|]. apply (bool_decide_unpack _). by vm_compute.
Qed.
